(** * Pollard's p-1 factor search (maths/pollards_p_minus_1.py)

    A shallow embedding of [pollard_rho], of its local generator
    [generate_primes] and of the command-line block that calls it, followed
    by the properties of the specification and by further properties of the
    code.

    Python integers are [Z].  The one floating-point computation of the
    program, [int(log(B, prime))], is embedded over Rocq's primitive binary64
    floats: the division and the truncation are the IEEE-754 ones, and the
    one-argument natural logarithm of the C library, which [math.log] calls
    on each of its two arguments, is the section variable [ln].  The calls to
    [randint] read successive values of an oracle [draw], and the embedding
    returns, next to the result, the number of values it has read. *)

From Stdlib Require Import String DecimalString.
From Stdlib Require Import ZArith Zdivisibility ZmodInv List Lia Bool Sorted.
From Stdlib Require Import PrimFloat SpecFloat FloatOps.
Import ListNotations.

Local Open Scope Z_scope.

(** ** Results and exceptions *)

(** The exceptions the function and the built-ins it calls can raise. *)
Inductive exn : Type :=
| ValueError
| ZeroDivisionError
| OverflowError
| TypeError.

Inductive result (A : Type) : Type :=
| Return (a : A)
| Raise (e : exn).

Arguments Return {A} a.
Arguments Raise {A} e.

Definition bind {A B : Type} (m : result A) (k : A -> result B) : result B :=
  match m with
  | Return a => k a
  | Raise e => Raise e
  end.

Notation "x <- m ;; k" := (bind m (fun x => k))
  (at level 61, m at next level, right associativity).

(** ** The prime stream *)

(** [range(lo, hi)] *)
Definition range (lo hi : Z) : list Z :=
  map (fun i => lo + Z.of_nat i) (seq 0 (Z.to_nat (hi - lo))).

(** [lambda x, p=prime: x % p != 0] *)
Definition not_multiple_of_prime (p x : Z) : bool := negb (x mod p =? 0).

(** The [while True] loop of [generate_primes]: [next(sieve)] takes the head
    of what is left, the [StopIteration] branch is the empty list, and
    [sieve = filter(not_multiple_of_prime, sieve)] filters the rest.  The
    iterators are lazy in the source; they have no effect, so the values
    they produce are those of the lists.  [fuel] bounds the number of
    iterations; [generate_primes] gives it the length of the range, one unit
    for each value the range can still produce. *)
Fixpoint sieve_loop (fuel : nat) (sieve : list Z) : list Z :=
  match fuel, sieve with
  | S fuel', prime :: rest =>
      prime :: sieve_loop fuel' (filter (not_multiple_of_prime prime) rest)
  | _, _ => []
  end.

Definition generate_primes (limit : Z) : list Z :=
  let sieve := range 2 (limit + 1) in
  sieve_loop (length sieve) sieve.

(** ** Floating point *)

(** [int(x)] on a float: truncation toward zero; [ValueError] on a NaN and
    [OverflowError] on an infinity. *)
Definition py_int (x : float) : result Z :=
  match Prim2SF x with
  | S754_nan => Raise ValueError
  | S754_infinity _ => Raise OverflowError
  | S754_zero _ => Return 0
  | S754_finite s m e =>
      let v := Z.shiftl (Z.pos m) e in
      Return (if s then - v else v)
  end.

(** ** Formatting *)

(** [str(n)], the decimal form that an f-string gives an integer. *)
Definition str (n : Z) : string := NilZero.string_of_int (Z.to_int n).

Section Pollard.

(** [math.log] with one argument, on a Python integer. *)
Variable ln : Z -> float.

(** [math.log(x, base)]: the quotient of the two logarithms, a float
    division, which raises on a zero denominator. *)
Definition log (x base : Z) : result float :=
  let num := ln x in
  let den := ln base in
  if (den =? 0)%float then Raise ZeroDivisionError
  else Return (num / den)%float.

(** [s = int(log(B, prime))] *)
Definition exponent (B prime : Z) : result Z :=
  x <- log B prime ;; py_int x.

(** The three assignments to [s], [r] and [guess] in the body of the inner
    loop.  A negative [s] makes [pow(prime, s)] a float, on which the
    three-argument [pow] raises [TypeError]; otherwise [r] is the integer
    power and [pow(guess, r, num)] the remainder of [guess ** r]. *)
Definition fold_in (num B prime guess : Z) : result Z :=
  s <- exponent B prime ;;
  if s <? 0 then Raise TypeError
  else
    let r := prime ^ s in
    Return ((guess ^ r) mod num).

(** [divisor != 1 and divisor != num] *)
Definition nontrivial (divisor num : Z) : bool :=
  negb (divisor =? 1) && negb (divisor =? num).

(** The inner [for prime in generate_primes(B)] loop of one attempt:
    [Return (Some divisor)] is the [return divisor], [Return None] the
    exhaustion of the primes. *)
Fixpoint attempt (num B : Z) (primes : list Z) (guess : Z)
  : result (option Z) :=
  match primes with
  | [] => Return None
  | prime :: primes' =>
      guess' <- fold_in num B prime guess ;;
      let divisor := Z.gcd (guess' - 1) num in
      if nontrivial divisor num then Return (Some divisor)
      else attempt num B primes' guess'
  end.

(** The values [guess] takes in that loop, one for each assignment
    [guess = pow(guess, r, num)] it executes. *)
Fixpoint guesses (num B : Z) (primes : list Z) (guess : Z) : list Z :=
  match primes with
  | [] => []
  | prime :: primes' =>
      match fold_in num B prime guess with
      | Raise _ => []
      | Return guess' =>
          guess' ::
          (if nontrivial (Z.gcd (guess' - 1) num) num then []
           else guesses num B primes' guess')
      end
  end.

(** The exponent that a whole pass over [primes] applies to the base: the
    product of the powers [r = pow(prime, s)], in the order of the loop; it
    raises where the loop body would. *)
Fixpoint net_exponent (B : Z) (primes : list Z) : result Z :=
  match primes with
  | [] => Return 1
  | prime :: primes' =>
      s <- exponent B prime ;;
      if s <? 0 then Raise TypeError
      else
        let r := prime ^ s in
        M <- net_exponent B primes' ;;
        Return (r * M)
  end.

(** The outer [for _ in range(attempts)] loop with [n] iterations left,
    [k] values of the oracle already read. *)
Fixpoint attempts_loop (draw : nat -> Z) (num B : Z) (n k : nat)
  : result (option Z) * nat :=
  match n with
  | O => (Return None, k)
  | S n' =>
      let guess := draw k in
      match attempt num B (generate_primes B) guess with
      | Return None => attempts_loop draw num B n' (S k)
      | r => (r, S k)
      end
  end.

(** [pollard_rho(num, B, step, attempts)], with the oracle [draw] behind
    [randint(2, num)].  The values of [randint(2, num)] lie between 2 and
    [num]; the one statement below that chooses the draws keeps them
    there, and the others hold for every oracle. *)
Definition pollard_rho (num B step attempts : Z) (draw : nat -> Z)
  : result (option Z) * nat :=
  if num <? 0 then (Raise ValueError, O)
  else if num <? 2 then (Return None, O)
  else attempts_loop draw num B (Z.to_nat attempts) O.

(** The namespace that [parser.parse_args()] returns. *)
Record args : Type := {
  args_num : Z;
  args_B : Z;
  args_attempts : Z
}.

(** The body of the [if __name__ == "__main__"] block after the parsing:
    the call [pollard_rho(args.num, args.B, attempts=args.attempts)], where
    [step] takes its default 1, and the line it prints; an exception of the
    call leaves the block with nothing printed. *)
Definition main (a : args) (draw : nat -> Z) : result string :=
  divisor <- fst (pollard_rho (args_num a) (args_B a) 1 (args_attempts a) draw) ;;
  match divisor with
  | None => Return (str (args_num a) ++ " is probably prime")%string
  | Some divisor =>
      let quotient := args_num a / divisor in
      Return (str (args_num a) ++ " = " ++ str divisor ++ " * "
              ++ str quotient)%string
  end.

End Pollard.

(** ** The logarithm on examples *)

(** The doubles [math.log] returns (CPython on glibc) at the integers that
    the examples below use; each is the double nearest to the real
    logarithm.  Elsewhere the table answers NaN, on which [py_int] raises. *)
Definition ln_table (x : Z) : float :=
  match x with
  | 2 => 0x1.62e42fefa39efp-1
  | 3 => 0x1.193ea7aad030bp+0
  | 5 => 0x1.9c041f7ed8d33p+0
  | 7 => 0x1.f2272ae325a57p+0
  | 10 => 0x1.26bb1bbb55516p+1
  | 243 => 0x1.5f8e5195843cdp+2
  | _ => nan
  end%float.

(** ** Notions of the specification *)

(** [no_divisor_below k x]: no [d] with [2 <= d < k] divides [x]. *)
Definition no_divisor_below (k x : Z) : bool :=
  forallb (fun d => not_multiple_of_prime d x) (range 2 k).

(** Primality by trial division. *)
Definition is_prime (x : Z) : bool := (2 <=? x) && no_divisor_below x x.

(** [composite n]: [n] has a divisor strictly between 1 and itself. *)
Definition composite (n : Z) : Prop := exists a, 1 < a < n /\ (a | n).

(** [smooth B n]: every prime factor of [n] is at most [B]. *)
Definition smooth (B n : Z) : Prop :=
  forall q, Z.prime q -> (q | n) -> q <= B.

(** The same, decided by trial over the candidates up to [n]. *)
Definition smoothb (B n : Z) : bool :=
  forallb (fun q => (q <=? B) || negb (is_prime q) || not_multiple_of_prime q n)
          (range 2 (n + 1)).

(** [small_power_of_2 s num]: [num] is a power of two from 4 up to
    [2 ^ (s + 2)], for an exponent [s >= 1]; modulo such a power the
    [2 ^ s]-th power of every odd number is 1. *)
Definition small_power_of_2 (s num : Z) : Prop :=
  1 <= s /\ exists k, 2 <= k <= s + 2 /\ num = 2 ^ k.

(** [proper_divisor d num]: a divisor strictly between 1 and [num]. *)
Definition proper_divisor (d num : Z) : Prop := (d | num) /\ 1 < d < num.

(** ** Ranges *)

Lemma range_nil lo hi : hi <= lo -> range lo hi = [].
Proof.
  intros H. unfold range.
  replace (Z.to_nat (hi - lo)) with O by lia. reflexivity.
Qed.

Lemma range_cons lo hi : lo < hi -> range lo hi = lo :: range (lo + 1) hi.
Proof.
  intros H. unfold range.
  replace (Z.to_nat (hi - lo)) with (S (Z.to_nat (hi - (lo + 1)))) by lia.
  cbn [seq map]. f_equal; [lia|].
  rewrite <- seq_shift, map_map.
  apply map_ext. intros i. lia.
Qed.

Lemma range_snoc lo hi : lo <= hi -> range lo (hi + 1) = range lo hi ++ [hi].
Proof.
  intros H. unfold range.
  replace (Z.to_nat (hi + 1 - lo)) with (S (Z.to_nat (hi - lo))) by lia.
  rewrite seq_S, map_app. cbn [map]. do 2 f_equal. lia.
Qed.

Lemma range_length lo hi : length (range lo hi) = Z.to_nat (hi - lo).
Proof. unfold range. now rewrite length_map, length_seq. Qed.

Lemma in_range x lo hi : In x (range lo hi) <-> lo <= x < hi.
Proof.
  unfold range. rewrite in_map_iff. split.
  - intros (i & <- & Hi%in_seq). lia.
  - intros H. exists (Z.to_nat (x - lo)). split; [lia|].
    apply in_seq. lia.
Qed.

Lemma range_sorted lo hi : StronglySorted Z.lt (range lo hi).
Proof.
  remember (Z.to_nat (hi - lo)) as n eqn:E.
  revert lo E. induction n as [|n IH]; intros lo E.
  - rewrite range_nil by lia. constructor.
  - rewrite range_cons by lia. constructor.
    + apply IH. lia.
    + apply Forall_forall. intros x Hx%in_range. lia.
Qed.

(** ** Correctness of the prime stream *)

Lemma not_multiple_of_prime_true p x :
  p <> 0 -> (not_multiple_of_prime p x = true <-> ~ (p | x)).
Proof.
  intros Hp. unfold not_multiple_of_prime.
  rewrite negb_true_iff, Z.eqb_neq, Z.mod_divide by assumption.
  reflexivity.
Qed.

Lemma no_divisor_below_true k x :
  no_divisor_below k x = true <-> forall d, 2 <= d < k -> ~ (d | x).
Proof.
  unfold no_divisor_below. rewrite forallb_forall. split.
  - intros H d Hd. apply not_multiple_of_prime_true; [lia|].
    apply H, in_range. exact Hd.
  - intros H d Hd%in_range. apply not_multiple_of_prime_true; [lia|].
    now apply H.
Qed.

Lemma no_divisor_below_succ k x :
  2 <= k ->
  no_divisor_below (k + 1) x =
  no_divisor_below k x && not_multiple_of_prime k x.
Proof.
  intros Hk. unfold no_divisor_below.
  rewrite range_snoc, forallb_app by assumption.
  cbn [forallb]. now rewrite andb_true_r.
Qed.

Lemma is_prime_spec x : is_prime x = true <-> Z.prime x.
Proof.
  unfold is_prime, Z.prime.
  rewrite andb_true_iff, Z.leb_le, no_divisor_below_true.
  split; intros [H1 H2]; (split; [lia|]); intros d Hd; apply H2; lia.
Qed.

(** A composite head removes nothing that its divisors have not removed. *)
Lemma no_divisor_below_composite k x :
  2 <= k ->
  no_divisor_below k k = false ->
  no_divisor_below k x = true ->
  not_multiple_of_prime k x = true.
Proof.
  intros Hk Hc Hx.
  apply not_multiple_of_prime_true; [lia|]. intros Hdiv.
  assert (Hn : no_divisor_below k k <> true) by (rewrite Hc; discriminate).
  apply Hn. apply no_divisor_below_true. intros d Hd Hdk.
  apply (proj1 (no_divisor_below_true k x) Hx d Hd).
  now apply Z.divide_trans with k.
Qed.

Lemma filter_no_divisor_succ k l :
  2 <= k ->
  filter (not_multiple_of_prime k) (filter (no_divisor_below k) l) =
  filter (no_divisor_below (k + 1)) l.
Proof.
  intros Hk. induction l as [|x l IH]; [reflexivity|].
  cbn [filter]. rewrite (no_divisor_below_succ k x Hk).
  destruct (no_divisor_below k x); cbn [filter andb];
    [destruct (not_multiple_of_prime k x)|]; now rewrite IH.
Qed.

Lemma filter_length_le {A} (f : A -> bool) l :
  (length (filter f l) <= length l)%nat.
Proof.
  induction l as [|x l IH]; cbn; [lia|]. destruct (f x); cbn; lia.
Qed.

Lemma sieve_loop_nil fuel : sieve_loop fuel [] = [].
Proof. now destruct fuel. Qed.

(** The invariant of the loop: when the cursor of the range is at [k], the
    sieve holds the values from [k] on that no smaller number divides, and
    what the loop yields from there are the primes from [k] on. *)
Lemma sieve_loop_spec limit n : forall k fuel,
  2 <= k ->
  Z.to_nat (limit + 1 - k) = n ->
  (length (filter (no_divisor_below k) (range k (limit + 1))) <= fuel)%nat ->
  sieve_loop fuel (filter (no_divisor_below k) (range k (limit + 1))) =
  filter is_prime (range k (limit + 1)).
Proof.
  induction n as [|n IH]; intros k fuel Hk Hn Hfuel.
  - rewrite range_nil by lia. apply sieve_loop_nil.
  - revert Hfuel. rewrite range_cons by lia. cbn [filter].
    unfold is_prime at 1.
    replace (2 <=? k) with true by (symmetry; apply Z.leb_le; lia).
    cbn [andb].
    destruct (no_divisor_below k k) eqn:Hkk; intros Hfuel.
    + destruct fuel as [|fuel]; [cbn in Hfuel; lia|].
      cbn [sieve_loop]. f_equal.
      rewrite filter_no_divisor_succ by assumption.
      apply IH; [lia|lia|].
      rewrite <- filter_no_divisor_succ by assumption.
      eapply Nat.le_trans; [apply filter_length_le|].
      cbn [length] in Hfuel. lia.
    + assert (Hsame :
        filter (no_divisor_below (k + 1)) (range (k + 1) (limit + 1)) =
        filter (no_divisor_below k) (range (k + 1) (limit + 1))).
      { rewrite <- filter_no_divisor_succ by assumption.
        apply forallb_filter_id, forallb_forall.
        intros x Hx%filter_In.
        apply no_divisor_below_composite; tauto. }
      rewrite <- Hsame. apply IH; [lia|lia|]. now rewrite Hsame.
Qed.

Lemma generate_primes_filter limit :
  generate_primes limit = filter is_prime (range 2 (limit + 1)).
Proof.
  unfold generate_primes. cbv zeta.
  rewrite <- (sieve_loop_spec limit _ 2 (length (range 2 (limit + 1))))
    by (try reflexivity; try lia; apply filter_length_le).
  f_equal. symmetry. apply forallb_filter_id. apply forallb_forall.
  intros x _. reflexivity.
Qed.

Lemma StronglySorted_filter {A} (R : A -> A -> Prop) (f : A -> bool) l :
  StronglySorted R l -> StronglySorted R (filter f l).
Proof.
  induction 1 as [|x l Hl IH Hx]; cbn; [constructor|].
  destruct (f x); [|exact IH]. constructor; [exact IH|].
  apply Forall_forall. intros y Hy%filter_In.
  rewrite Forall_forall in Hx. now apply Hx.
Qed.

Lemma StronglySorted_lt_NoDup l : StronglySorted Z.lt l -> NoDup l.
Proof.
  induction 1 as [|x l Hl IH Hx]; constructor; [|exact IH].
  intros Hin. rewrite Forall_forall in Hx. specialize (Hx x Hin). lia.
Qed.

(** C6: for every integer [limit], [generate_primes limit] is a (finite) list
    whose elements are exactly the primes [p] with [2 <= p <= limit], in
    strictly ascending order, hence each exactly once; it is empty when
    [limit < 2]. *)
Theorem generate_primes_correct (limit : Z) :
  (forall p, In p (generate_primes limit) <-> Z.prime p /\ 2 <= p <= limit) /\
  StronglySorted Z.lt (generate_primes limit) /\
  NoDup (generate_primes limit) /\
  (limit < 2 -> generate_primes limit = []).
Proof.
  rewrite generate_primes_filter.
  assert (Hs : StronglySorted Z.lt (filter is_prime (range 2 (limit + 1))))
    by apply StronglySorted_filter, range_sorted.
  split; [|split; [exact Hs|split]].
  - intros p. rewrite filter_In, in_range, is_prime_spec.
    split; [intros [Hr Hp]|intros [Hp Hr]]; (split; [|lia || assumption]);
      lia || assumption.
  - now apply StronglySorted_lt_NoDup.
  - intros H. now rewrite range_nil by lia.
Qed.

(** ** Runs on concrete inputs *)

Example generate_primes_50 :
  generate_primes 50 = [2; 3; 5; 7; 11; 13; 17; 19; 23; 29; 31; 37; 41; 43; 47].
Proof. reflexivity. Qed.

Example generate_primes_1 : generate_primes 1 = [].
Proof. reflexivity. Qed.

Example exponents_10 :
  map (exponent ln_table 10) (generate_primes 10) =
  [Return 3; Return 2; Return 1; Return 1].
Proof. vm_compute. reflexivity. Qed.

(** 8051 = 83 * 97, and 96 = 2^5 * 3. *)
Example pollard_rho_8051 :
  pollard_rho ln_table 8051 10 1 5 (fun _ => 84) = (Return (Some 83), 1%nat).
Proof. vm_compute. reflexivity. Qed.

Example pollard_rho_17 :
  pollard_rho ln_table 17 10 1 5 (fun k => 2 + Z.of_nat k) =
  (Return None, 5%nat).
Proof. vm_compute. reflexivity. Qed.

(** ** One attempt *)

Lemma nontrivial_true d num :
  nontrivial d num = true <-> d <> 1 /\ d <> num.
Proof.
  unfold nontrivial.
  now rewrite andb_true_iff, !negb_true_iff, !Z.eqb_neq.
Qed.

Lemma nontrivial_gcd_proper g num :
  2 <= num ->
  nontrivial (Z.gcd g num) num = true ->
  proper_divisor (Z.gcd g num) num.
Proof.
  intros Hnum [H1 Hn]%nontrivial_true.
  pose proof (Z.gcd_divide_r g num) as Hd.
  pose proof (Z.gcd_nonneg g num) as H0.
  assert (Z.gcd g num <> 0) by (intros [_ E]%Z.gcd_eq_0; lia).
  assert (Z.gcd g num <= num) by (apply Z.divide_pos_le; [lia|exact Hd]).
  split; [exact Hd|lia].
Qed.

Section Attempt.

Variable ln : Z -> float.
Variables num B : Z.

Lemma fold_in_range prime guess guess' :
  0 < num ->
  fold_in ln num B prime guess = Return guess' ->
  0 <= guess' < num.
Proof.
  intros Hnum. unfold fold_in.
  destruct (exponent ln B prime) as [s|e]; cbn [bind]; [|discriminate].
  destruct (s <? 0); [discriminate|].
  intros [= <-]. now apply Z.mod_pos_bound.
Qed.

Lemma attempt_divisor primes : forall guess d,
  2 <= num ->
  attempt ln num B primes guess = Return (Some d) ->
  proper_divisor d num.
Proof.
  induction primes as [|prime primes IH]; intros guess d Hnum; cbn [attempt].
  - discriminate.
  - destruct (fold_in ln num B prime guess) as [guess'|e]; cbn [bind];
      [|discriminate].
    destruct (nontrivial (Z.gcd (guess' - 1) num) num) eqn:Hnt.
    + intros [= <-]. now apply nontrivial_gcd_proper.
    + now apply IH.
Qed.

Lemma guesses_range primes : forall guess,
  0 < num ->
  Forall (fun g => 0 <= g < num) (guesses ln num B primes guess).
Proof.
  induction primes as [|prime primes IH]; intros guess Hnum; cbn [guesses].
  - constructor.
  - destruct (fold_in ln num B prime guess) as [guess'|e] eqn:Hf;
      [|constructor].
    constructor; [now apply (fold_in_range prime guess)|].
    destruct (nontrivial _ _); [constructor|now apply IH].
Qed.

(** The divisor an attempt returns is the gcd taken on one of the values
    that [guesses] lists. *)
Lemma attempt_divisor_guess primes : forall guess d,
  attempt ln num B primes guess = Return (Some d) ->
  exists g, In g (guesses ln num B primes guess) /\ d = Z.gcd (g - 1) num.
Proof.
  induction primes as [|prime primes IH]; intros guess d;
    cbn [attempt guesses].
  - discriminate.
  - destruct (fold_in ln num B prime guess) as [guess'|e]; cbn [bind];
      [|discriminate].
    destruct (nontrivial (Z.gcd (guess' - 1) num) num).
    + intros [= <-]. exists guess'. split; [now left|reflexivity].
    + intros (g & Hg & ->)%IH. exists g. split; [now right|reflexivity].
Qed.

(** ** The attempts *)

Lemma attempts_loop_some draw n : forall k d,
  fst (attempts_loop ln draw num B n k) = Return (Some d) ->
  exists guess, attempt ln num B (generate_primes B) guess = Return (Some d).
Proof.
  induction n as [|n IH]; intros k d; cbn [attempts_loop].
  - discriminate.
  - destruct (attempt ln num B (generate_primes B) (draw k))
      as [[d'|]|e] eqn:Ha; cbn [fst].
    + intros [= <-]. now exists (draw k).
    + apply IH.
    + discriminate.
Qed.

Lemma attempts_loop_none draw n : forall k,
  (forall i, (i < n)%nat ->
     attempt ln num B (generate_primes B) (draw (k + i)%nat) = Return None) ->
  attempts_loop ln draw num B n k = (Return None, (k + n)%nat).
Proof.
  induction n as [|n IH]; intros k H; cbn [attempts_loop].
  - now rewrite Nat.add_0_r.
  - specialize (H O (Nat.lt_0_succ n)) as H0. rewrite Nat.add_0_r in H0.
    rewrite H0, IH; [f_equal; lia|].
    intros i Hi. replace (S k + i)%nat with (k + S i)%nat by lia.
    apply H. lia.
Qed.

Lemma attempts_loop_draws draw n : forall k,
  (k <= snd (attempts_loop ln draw num B n k) <= k + n)%nat.
Proof.
  induction n as [|n IH]; intros k; cbn [attempts_loop].
  - cbn. lia.
  - destruct (attempt ln num B (generate_primes B) (draw k)) as [[d|]|e];
      cbn [snd]; try lia.
    specialize (IH (S k)). lia.
Qed.

Lemma attempts_loop_ext draw1 draw2 n : forall k,
  (forall i, (i < n)%nat -> draw1 (k + i)%nat = draw2 (k + i)%nat) ->
  attempts_loop ln draw1 num B n k = attempts_loop ln draw2 num B n k.
Proof.
  induction n as [|n IH]; intros k H; cbn [attempts_loop]; [reflexivity|].
  specialize (H O (Nat.lt_0_succ n)) as H0. rewrite Nat.add_0_r in H0.
  rewrite H0, IH; [reflexivity|].
  intros i Hi. replace (S k + i)%nat with (k + S i)%nat by lia.
  apply H. lia.
Qed.

End Attempt.

(** ** The public function *)

(** Decides the two guards on [num] at the head of [pollard_rho]. *)
Ltac guards :=
  unfold pollard_rho;
  repeat match goal with
         | |- context [?a <? ?b] =>
             destruct (Z.ltb_spec a b) as [?Hguard|?Hguard]; try lia
         end.

(** C2: whenever the function returns a divisor [d] (a value that is not
    [None]), [d] divides [num] and [1 < d < num]; in particular the value
    returned is neither 1 nor [num]. *)
Theorem pollard_rho_divisor ln num B step attempts draw d :
  fst (pollard_rho ln num B step attempts draw) = Return (Some d) ->
  (d | num) /\ 1 < d < num /\ d <> 1 /\ d <> num.
Proof.
  unfold pollard_rho.
  destruct (num <? 0); [discriminate|].
  destruct (Z.ltb_spec num 2) as [|Hnum]; [discriminate|].
  intros (guess & Ha)%attempts_loop_some.
  destruct (attempt_divisor ln num B _ _ _ Hnum Ha) as [Hd Hr].
  repeat split; try assumption; lia.
Qed.

Lemma pollard_rho_divisor_witness :
  (83 | 8051) /\ 1 < 83 < 8051 /\ 83 <> 1 /\ 83 <> 8051.
Proof.
  apply (pollard_rho_divisor ln_table 8051 10 1 5 (fun _ => 84) 83).
  vm_compute. reflexivity.
Defined.

(** C4: on a negative [num] the function raises [ValueError], whatever [B],
    [step] and [attempts] are, before it reads the random source or calls
    the logarithm: the outcome is the exception with no draw consumed. *)
Theorem pollard_rho_negative ln num B step attempts draw :
  num < 0 ->
  pollard_rho ln num B step attempts draw = (Raise ValueError, O).
Proof.
  intros H. now guards.
Qed.

Lemma pollard_rho_negative_witness :
  pollard_rho ln_table (-5) 10 1 3 (fun _ => 2) = (Raise ValueError, O).
Proof. apply pollard_rho_negative. lia. Defined.

(** C5: on [num = 0] and [num = 1] the function returns [None] at once,
    whatever [B], [step] and [attempts] are: no draw is consumed and no
    attempt is run. *)
Theorem pollard_rho_below_2 ln num B step attempts draw :
  0 <= num < 2 ->
  pollard_rho ln num B step attempts draw = (Return None, O).
Proof.
  intros H. now guards.
Qed.

Lemma pollard_rho_below_2_witness :
  pollard_rho ln_table 1 10 1 3 (fun _ => 2) = (Return None, O).
Proof. apply pollard_rho_below_2. lia. Defined.

(** C7: for [num >= 2], any [B] and [attempts >= 0], the function (a total
    function: every attempt runs over the finite list [generate_primes B])
    reads at most [attempts] draws, and when every one of the [attempts]
    attempts ends without a nontrivial gcd it returns [None] after exactly
    [attempts] of them. *)
Theorem pollard_rho_exhausted ln num B step attempts draw :
  2 <= num ->
  0 <= attempts ->
  (Z.of_nat (snd (pollard_rho ln num B step attempts draw)) <= attempts) /\
  ((forall k, (k < Z.to_nat attempts)%nat ->
      attempt ln num B (generate_primes B) (draw k) = Return None) ->
   pollard_rho ln num B step attempts draw =
   (Return None, Z.to_nat attempts)).
Proof.
  intros Hnum Hatt. guards. split.
  - pose proof (attempts_loop_draws ln num B draw (Z.to_nat attempts) O).
    lia.
  - intros H. now apply attempts_loop_none.
Qed.

Lemma pollard_rho_exhausted_witness :
  pollard_rho ln_table 17 10 1 5 (fun k => 2 + Z.of_nat k) =
  (Return None, 5%nat).
Proof.
  apply (pollard_rho_exhausted ln_table 17 10 1 5 (fun k => 2 + Z.of_nat k));
    [lia|lia|].
  intros k Hk. change (Z.to_nat 5) with 5%nat in Hk.
  do 5 (destruct k as [|k]; [vm_compute; reflexivity|]). lia.
Defined.

(** C8: the result is a function of [num], [B], [attempts] and of the draws
    alone: two runs whose random sources give the same first [attempts]
    values return the same result, after the same number of draws. *)
Theorem pollard_rho_deterministic ln num B step attempts draw1 draw2 :
  (forall k, (k < Z.to_nat attempts)%nat -> draw1 k = draw2 k) ->
  pollard_rho ln num B step attempts draw1 =
  pollard_rho ln num B step attempts draw2.
Proof.
  intros H. unfold pollard_rho.
  destruct (num <? 0); [reflexivity|].
  destruct (num <? 2); [reflexivity|].
  now apply attempts_loop_ext.
Qed.

Lemma pollard_rho_deterministic_witness :
  pollard_rho ln_table 8051 10 1 5 (fun k => 2 + Z.of_nat k) =
  pollard_rho ln_table 8051 10 1 5
    (fun k => if (k <? 5)%nat then 2 + Z.of_nat k else 0).
Proof.
  apply pollard_rho_deterministic.
  intros k Hk. change (Z.to_nat 5) with 5%nat in Hk.
  apply Nat.ltb_lt in Hk. now rewrite Hk.
Defined.

(** C9: in every attempt, each value that [guess] takes after a modular
    exponentiation lies in the interval from 0 (included) to [num]
    (excluded). *)
Theorem guess_reduced ln num B guess :
  2 <= num ->
  Forall (fun g => 0 <= g < num)
         (guesses ln num B (generate_primes B) guess).
Proof. intros H. apply guesses_range. lia. Qed.

Lemma guess_reduced_witness :
  Forall (fun g => 0 <= g < 8051)
         (guesses ln_table 8051 10 (generate_primes 10) 2).
Proof. apply guess_reduced. lia. Defined.

(** C10: the parameter [step] is never read: two runs that differ only in
    [step] return the same result after the same number of draws. *)
Theorem pollard_rho_step_unused ln num B step1 step2 attempts draw :
  pollard_rho ln num B step1 attempts draw =
  pollard_rho ln num B step2 attempts draw.
Proof. reflexivity. Qed.

(** ** Finding a factor *)

Lemma smoothb_spec B n : 0 < n -> smoothb B n = true -> smooth B n.
Proof.
  intros Hn H q Hq Hd. unfold smoothb in H. rewrite forallb_forall in H.
  pose proof (Z.prime_ge_2 q Hq).
  assert (q <= n) by (apply Z.divide_pos_le; assumption).
  specialize (H q (proj2 (in_range q 2 (n + 1)) ltac:(lia))).
  apply orb_true_iff in H. destruct H as [H|H].
  - apply orb_true_iff in H. destruct H as [H|H]; [now apply Z.leb_le|].
    apply is_prime_spec in Hq. rewrite Hq in H. discriminate.
  - apply not_multiple_of_prime_true in H; [contradiction|lia].
Qed.

Lemma generate_primes_head B :
  2 <= B -> exists rest, generate_primes B = 2 :: rest.
Proof.
  intros H. rewrite generate_primes_filter, range_cons by lia.
  cbn [filter]. change (is_prime 2) with true. cbv iota. eauto.
Qed.

Lemma divide_pow_sub_1 p a r : 0 <= r -> (p | a - 1) -> (p | a ^ r - 1).
Proof.
  intros Hr Ha. pattern r. apply natlike_ind; [| |exact Hr].
  - rewrite Z.pow_0_r, Z.sub_diag. apply Z.divide_0_r.
  - intros x Hx IH. rewrite Z.pow_succ_r by assumption.
    replace (a * a ^ x - 1) with (a * (a ^ x - 1) + (a - 1)) by ring.
    apply Z.divide_add_r; [now apply Z.divide_mul_r|assumption].
Qed.

Lemma generate_primes_in B p :
  In p (generate_primes B) -> Z.prime p /\ 2 <= p <= B.
Proof.
  rewrite generate_primes_filter, filter_In, in_range, is_prime_spec.
  intros [? ?]. split; [assumption|lia].
Qed.

Lemma fold_in_inv ln num B prime guess guess' :
  fold_in ln num B prime guess = Return guess' ->
  exists s, exponent ln B prime = Return s /\ 0 <= s /\
            guess' = (guess ^ (prime ^ s)) mod num.
Proof.
  unfold fold_in.
  destruct (exponent ln B prime) as [s|e]; cbn [bind]; [|discriminate].
  destruct (Z.ltb_spec s 0); [discriminate|].
  intros [= <-]. now exists s.
Qed.

Lemma gcd_minus_1 num : Z.gcd (0 - 1) num = 1.
Proof. change (0 - 1) with (- (1)). now rewrite Z.gcd_opp_l, Z.gcd_1_l. Qed.

Lemma generate_primes_ge_1 B : Forall (fun p => 1 <= p) (generate_primes B).
Proof. apply Forall_forall. intros p Hp%generate_primes_in. lia. Qed.

Lemma gcd_mod_pred a num :
  num <> 0 -> Z.gcd (a mod num - 1) num = Z.gcd (a - 1) num.
Proof.
  intros Hnum. rewrite Z.mod_eq by assumption.
  replace (a - num * (a / num) - 1) with (a - 1 + - (a / num) * num) by ring.
  now rewrite (Z.gcd_comm _ num), Z.gcd_add_mult_diag_r, Z.gcd_comm.
Qed.

(** Every number from 2 on has a prime divisor. *)
Lemma prime_divisor_exists n : 2 <= n -> exists q, Z.prime q /\ (q | n).
Proof.
  intros Hn. assert (H0 : 0 <= n) by lia. revert Hn.
  pattern n. apply Z_lt_induction; [|exact H0].
  clear n H0. intros n IH Hn.
  destruct (is_prime n) eqn:E.
  - exists n. split; [now apply is_prime_spec|apply Z.divide_refl].
  - unfold is_prime in E.
    replace (2 <=? n) with true in E by (symmetry; apply Z.leb_le; lia).
    cbn [andb] in E.
    assert (Hex : exists d, 2 <= d < n /\ (d | n)).
    { unfold no_divisor_below in E.
      destruct (existsb (fun d => negb (not_multiple_of_prime d n)) (range 2 n))
        eqn:Hx.
      - apply existsb_exists in Hx as (d & Hd%in_range & Hm).
        exists d. split; [lia|].
        apply negb_true_iff in Hm. unfold not_multiple_of_prime in Hm.
        apply negb_false_iff, Z.eqb_eq in Hm.
        apply Z.mod_divide; [lia|exact Hm].
      - exfalso. assert (forallb (fun d => not_multiple_of_prime d n) (range 2 n) = true); [|congruence].
        apply forallb_forall. intros d Hd.
        destruct (not_multiple_of_prime d n) eqn:Hm; [reflexivity|].
        assert (existsb (fun d => negb (not_multiple_of_prime d n)) (range 2 n) = true); [|congruence].
        apply existsb_exists. exists d. split; [exact Hd|]. now rewrite Hm. }
    destruct Hex as (d & Hd & Hdn).
    destruct (IH d ltac:(lia) ltac:(lia)) as (q & Hq & Hqd).
    exists q. split; [exact Hq|]. now apply Z.divide_trans with d.
Qed.

Lemma smooth_bound B p : Z.prime p -> p <> 2 -> smooth B (p - 1) -> 2 <= B.
Proof.
  intros Hp Hne Hs. pose proof (Z.prime_ge_2 p Hp).
  destruct (prime_divisor_exists (p - 1) ltac:(lia)) as (q & Hq & Hd).
  pose proof (Z.prime_ge_2 q Hq). specialize (Hs q Hq Hd). lia.
Qed.

(** The part of [n] that is a power of [p]. *)
Lemma power_part p n :
  1 < p -> 0 < n ->
  exists k m, 0 <= k /\ 0 < m /\ n = p ^ k * m /\ ~ (p | m).
Proof.
  intros Hp Hn. assert (H0 : 0 <= n) by lia. revert Hn.
  pattern n. apply Z_lt_induction; [|exact H0].
  clear n H0. intros n IH Hn.
  destruct (Z.eq_dec (n mod p) 0) as [E|E].
  - apply Z.mod_divide in E; [|lia]. destruct E as [c ->].
    destruct (IH c ltac:(nia) ltac:(nia)) as (k & m & Hk & Hm & -> & Hpm).
    exists (k + 1), m. repeat split; try assumption; [lia|].
    rewrite Z.pow_add_r, Z.pow_1_r by lia. ring.
  - exists 0, n. split; [lia|]. split; [lia|]. split.
    + rewrite Z.pow_0_r. ring.
    + intros Hd. apply E. now apply Z.mod0_divide.
Qed.

Lemma split_base u v :
  1 < u -> 1 < v -> Z.coprime v u ->
  exists a, 2 <= a < u * v /\ (u | a - 1) /\ (v | a).
Proof.
  intros Hu Hv Hrel.
  destruct (Z.Bezout_coprime v u Hrel) as (x & y & Hxy).
  assert (Hv' : (v | (x * v) mod (u * v))).
  { rewrite Z.mod_eq by lia.
    apply Z.divide_sub_r; [apply Z.divide_factor_r|].
    apply Z.divide_mul_l, Z.divide_factor_r. }
  assert (Hu' : (u | (x * v) mod (u * v) - 1)).
  { rewrite Z.mod_eq by lia.
    replace (x * v - u * v * (x * v / (u * v)) - 1)
      with (u * (- y - v * (x * v / (u * v)))) by lia.
    apply Z.divide_factor_l. }
  pose proof (Z.mod_pos_bound (x * v) (u * v) ltac:(nia)) as Hb.
  exists ((x * v) mod (u * v)). split; [|now split].
  assert ((x * v) mod (u * v) <> 0).
  { intros E. rewrite E in Hu'. apply Z.divide_opp_r in Hu'.
    apply Z.divide_1_r_nonneg in Hu'; lia. }
  assert ((x * v) mod (u * v) <> 1).
  { intros E. rewrite E in Hv'. apply Z.divide_1_r_nonneg in Hv'; lia. }
  lia.
Qed.

(** The first step of an attempt returns when its gcd has a factor of
    [num] and is not [num]. *)
Lemma first_step_returns ln num B u a s rest :
  2 <= num -> 1 < u -> (u | num) -> (u | a - 1) ->
  exponent ln B 2 = Return s -> 0 <= s ->
  ~ (num | a ^ (2 ^ s) - 1) ->
  exists d, attempt ln num B (2 :: rest) a = Return (Some d).
Proof.
  intros Hnum Hu Hun Hua Hs Hs0 Hnot.
  cbn [attempt]. unfold fold_in. rewrite Hs. cbn [bind].
  replace (s <? 0) with false by (symmetry; apply Z.ltb_ge; lia).
  cbv zeta. cbn [bind]. rewrite gcd_mod_pred by lia.
  assert (Hnt : nontrivial (Z.gcd (a ^ (2 ^ s) - 1) num) num = true);
    [|rewrite Hnt; eauto].
  apply nontrivial_true. split.
  - intros E.
    assert (Hd : (u | Z.gcd (a ^ (2 ^ s) - 1) num)).
    { apply Z.gcd_greatest; [|assumption].
      apply divide_pow_sub_1; [|assumption].
      pose proof (Z.pow_pos_nonneg 2 s). lia. }
    rewrite E in Hd. apply Z.divide_1_r_nonneg in Hd; lia.
  - intros E. apply Hnot. rewrite <- E at 1. apply Z.gcd_divide_l.
Qed.

(** ** Prime powers *)

Lemma pow_succ_base q r :
  0 <= r -> exists c, (1 + q) ^ r = 1 + r * q + q * q * c.
Proof.
  intros Hr. pattern r. apply natlike_ind; [| |exact Hr].
  - exists 0. rewrite Z.pow_0_r. ring.
  - intros x Hx [c IH]. exists (c + x + q * c).
    rewrite Z.pow_succ_r, IH by assumption. ring.
Qed.

Lemma odd_prime_power_step q k s :
  Z.prime q -> q <> 2 -> 2 <= k -> 0 <= s ->
  ~ (q ^ k | (1 + q) ^ (2 ^ s) - 1).
Proof.
  intros Hq Hne Hk Hs Hd.
  pose proof (Z.prime_ge_2 q Hq) as Hq2.
  assert (Hr : 0 <= 2 ^ s) by (apply Z.pow_nonneg; lia).
  destruct (pow_succ_base q (2 ^ s) Hr) as [c Hc].
  assert (Hsq : (q * q | q ^ k)).
  { exists (q ^ (k - 2)). replace k with (k - 2 + 2) at 1 by lia.
    rewrite Z.pow_add_r by lia. rewrite Z.pow_2_r. ring. }
  apply (Z.divide_trans _ _ _ Hsq) in Hd. destruct Hd as [e He].
  assert (Hq2s : (q | 2 ^ s)).
  { exists (e - c). nia. }
  apply Z.divide_prime_pp in Hq2s; [contradiction|assumption| |assumption].
  exact Z.prime_2.
Qed.

(** [3 ^ (2 ^ s) - 1] is [2 ^ (s + 2)] times an odd number, from [s = 1]
    on. *)
Lemma pow_3_two_adic s :
  0 <= s -> exists u, 3 ^ (2 ^ (s + 1)) = 1 + 2 ^ (s + 3) * (2 * u + 1).
Proof.
  intros Hs. pattern s. apply natlike_ind; [| |exact Hs].
  - exists 0. reflexivity.
  - intros x Hx [u IH].
    exists (u + 2 ^ (x + 1) * ((2 * u + 1) * (2 * u + 1))).
    replace (Z.succ x + 1) with (x + 1 + 1) by lia.
    replace (Z.succ x + 3) with (x + 1 + 3) by lia.
    rewrite (Z.pow_add_r 2 (x + 1) 1), Z.pow_1_r by lia.
    rewrite Z.pow_mul_r, IH by (try apply Z.pow_nonneg; lia).
    replace (x + 3) with (x + 1 + 2) by lia.
    rewrite !(Z.pow_add_r 2 (x + 1)) by lia.
    change (2 ^ 2) with 4. change (2 ^ 3) with 8.
    rewrite Z.pow_2_r. ring.
Qed.

(** The square of an odd number, taken [s] more times, is 1 modulo
    [2 ^ (s + 3)]. *)
Lemma pow_odd_two_adic b s :
  0 <= s -> exists c, (2 * b + 1) ^ (2 ^ (s + 1)) = 1 + 2 ^ (s + 3) * c.
Proof.
  intros Hs. pattern s. apply natlike_ind; [| |exact Hs].
  - destruct (Z.Even_or_Odd b) as [[h ->]|[h ->]].
    + exists (h * (2 * h + 1)). change (2 ^ (0 + 1)) with 2.
      change (2 ^ (0 + 3)) with 8. rewrite Z.pow_2_r. ring.
    + exists ((2 * h + 1) * (h + 1)). change (2 ^ (0 + 1)) with 2.
      change (2 ^ (0 + 3)) with 8. rewrite Z.pow_2_r. ring.
  - intros x Hx [c IH].
    exists (c + 2 ^ (x + 2) * (c * c)).
    replace (Z.succ x + 1) with (x + 1 + 1) by lia.
    replace (Z.succ x + 3) with (x + 2 + 2) by lia.
    rewrite (Z.pow_add_r 2 (x + 1) 1), Z.pow_1_r by lia.
    rewrite Z.pow_mul_r, IH by (try apply Z.pow_nonneg; lia).
    replace (x + 3) with (x + 2 + 1) by lia.
    rewrite !(Z.pow_add_r 2 (x + 2)) by lia.
    change (2 ^ 2) with 4. change (2 ^ 1) with 2.
    rewrite Z.pow_2_r. ring.
Qed.

Lemma power_of_2_step k s :
  2 <= k -> 0 <= s -> s = 0 \/ s + 3 <= k ->
  ~ (2 ^ k | 3 ^ (2 ^ s) - 1).
Proof.
  intros Hk Hs Hcase Hd.
  destruct (Z.eq_dec s 0) as [->|Hs0].
  - change (3 ^ (2 ^ 0) - 1) with 2 in Hd.
    apply Z.divide_pos_le in Hd; [|lia].
    pose proof (Z.pow_le_mono_r 2 2 k ltac:(lia) ltac:(lia)) as Hle.
    change (2 ^ 2) with 4 in Hle. lia.
  - destruct (pow_3_two_adic (s - 1) ltac:(lia)) as [u Hu].
    replace (s - 1 + 1) with s in Hu by lia.
    replace (s - 1 + 3) with (s + 2) in Hu by lia.
    rewrite Hu in Hd.
    replace (1 + 2 ^ (s + 2) * (2 * u + 1) - 1)
      with (2 ^ (s + 2) * (2 * u + 1)) in Hd by ring.
    assert (Hpow : (2 ^ (s + 3) | 2 ^ k)).
    { exists (2 ^ (k - (s + 3))). rewrite <- Z.pow_add_r by lia.
      f_equal. lia. }
    apply (Z.divide_trans _ _ _ Hpow) in Hd. destruct Hd as [e He].
    replace (s + 3) with (s + 2 + 1) in He by lia.
    rewrite (Z.pow_add_r 2 (s + 2) 1), Z.pow_1_r in He by lia.
    pose proof (Z.pow_pos_nonneg 2 (s + 2) ltac:(lia) ltac:(lia)) as Hpos.
    assert (E : 2 ^ (s + 2) * (2 * u + 1 - 2 * e) = 0) by lia.
    apply Z.mul_eq_0 in E. lia.
Qed.

Lemma odd_pow_mod_power_of_2 b k s :
  1 <= s -> 2 <= k <= s + 2 ->
  (2 * b + 1) ^ (2 ^ s) mod 2 ^ k = 1.
Proof.
  intros Hs Hk.
  destruct (pow_odd_two_adic b (s - 1) ltac:(lia)) as [c Hc].
  replace (s - 1 + 1) with s in Hc by lia.
  replace (s - 1 + 3) with (s + 2 - k + k) in Hc by lia.
  rewrite Z.pow_add_r in Hc by lia. rewrite Hc.
  replace (1 + 2 ^ (s + 2 - k) * 2 ^ k * c)
    with (1 + (2 ^ (s + 2 - k) * c) * 2 ^ k) by ring.
  rewrite Z_mod_plus_full. apply Z.mod_1_l.
  pose proof (Z.pow_le_mono_r 2 2 k ltac:(lia) ltac:(lia)) as Hle.
  change (2 ^ 2) with 4 in Hle. lia.
Qed.

(** ** Bases that cannot split a power of two *)

Lemma attempt_from_1 ln num B primes :
  2 <= num ->
  Forall (fun p => 1 <= p) primes ->
  forall d, attempt ln num B primes 1 <> Return (Some d).
Proof.
  intros Hnum. induction primes as [|prime primes IH]; intros Hp d;
    cbn [attempt]; [discriminate|].
  inversion Hp as [|? ? Hprime Hrest]; subst.
  destruct (fold_in ln num B prime 1) as [guess'|e] eqn:Hf; cbn [bind];
    [|discriminate].
  apply fold_in_inv in Hf as (s & _ & Hs & ->).
  rewrite Z.pow_1_l by (apply Z.pow_nonneg; lia).
  rewrite Z.mod_1_l, Z.sub_diag, Z.gcd_0_l, Z.abs_eq by lia.
  unfold nontrivial. rewrite Z.eqb_refl, andb_false_r.
  now apply IH.
Qed.

Lemma attempt_even ln k B primes : forall guess,
  1 <= k ->
  Forall (fun p => 1 <= p) primes ->
  (2 | guess) ->
  forall d, attempt ln (2 ^ k) B primes guess <> Return (Some d).
Proof.
  induction primes as [|prime primes IH]; intros guess Hk Hp Heven d;
    cbn [attempt]; [discriminate|].
  inversion Hp as [|? ? Hprime Hrest]; subst.
  destruct (fold_in ln (2 ^ k) B prime guess) as [guess'|e] eqn:Hf;
    cbn [bind]; [|discriminate].
  apply fold_in_inv in Hf as (s & _ & Hs & ->).
  assert (Hr : 1 <= prime ^ s) by (pose proof (Z.pow_pos_nonneg prime s); lia).
  assert (Hnum : 0 < 2 ^ k) by (apply Z.pow_pos_nonneg; lia).
  assert (H2 : (2 | 2 ^ k)) by (apply Z.divide_pow_same_r; lia).
  assert (Heven' : (2 | guess ^ (prime ^ s) mod 2 ^ k)).
  { rewrite Z.mod_eq by lia.
    apply Z.divide_sub_r; [|now apply Z.divide_mul_l].
    apply Z.divide_trans with guess; [assumption|].
    now apply Z.divide_pow_same_r. }
  assert (Hgcd : Z.gcd (guess ^ (prime ^ s) mod 2 ^ k - 1) (2 ^ k) = 1).
  { apply Z.coprime_pow_r; [lia|]. symmetry.
    apply Z.coprime_prime_l; [exact Z.prime_2|].
    intros Hd.
    assert (H1 : (2 | 1)).
    { replace 1 with (guess ^ (prime ^ s) mod 2 ^ k
                      - (guess ^ (prime ^ s) mod 2 ^ k - 1)) by ring.
      now apply Z.divide_sub_r. }
    apply Z.divide_1_r_nonneg in H1; lia. }
  rewrite Hgcd. replace (nontrivial 1 (2 ^ k)) with false by reflexivity.
  now apply IH.
Qed.

(** On a power of two that [small_power_of_2] describes, no base makes an
    attempt return: an even base keeps [guess] even, and an odd base is
    taken to 1 by the first step. *)
Lemma attempt_small_power_of_2 ln num B s rest guess :
  small_power_of_2 s num ->
  exponent ln B 2 = Return s ->
  Forall (fun p => 1 <= p) rest ->
  forall d, attempt ln num B (2 :: rest) guess <> Return (Some d).
Proof.
  intros (Hs & k & Hk & ->) Hexp Hrest d.
  destruct (Z.Even_or_Odd guess) as [[b ->]|[b ->]].
  - apply attempt_even; [lia| |apply Z.divide_factor_l].
    constructor; [lia|assumption].
  - cbn [attempt]. unfold fold_in. rewrite Hexp. cbn [bind].
    replace (s <? 0) with false by (symmetry; apply Z.ltb_ge; lia).
    cbv zeta. cbn [bind].
    rewrite odd_pow_mod_power_of_2 by lia.
    assert (Hnum : 4 <= 2 ^ k).
    { pose proof (Z.pow_le_mono_r 2 2 k ltac:(lia) ltac:(lia)) as Hle.
      exact Hle. }
    rewrite Z.sub_diag, Z.gcd_0_l, Z.abs_eq by lia.
    unfold nontrivial. rewrite Z.eqb_refl, andb_false_r.
    apply attempt_from_1; [lia|assumption].
Qed.

(** C1, as amended: let [num] be composite with a prime factor [p] such
    that [p - 1] is [B]-smooth, let [attempts >= 1], let [B >= 2] when
    [p = 2] (for an odd [p] the smoothness of [p - 1] gives it), and let the
    exponent computed for the prime 2 be an integer [s >= 0].  Then there
    is a sequence of draws, each between 2 and [num], on which the function
    returns a divisor [d] with [1 < d < num] and [num mod d = 0], unless
    [num] is a power of two [2 ^ k] with [2 <= k <= s + 2] and [s >= 1];
    on those powers of two no sequence of draws returns a divisor. *)
Theorem pollard_rho_finds_factor ln num B step attempts p s :
  composite num ->
  Z.prime p -> (p | num) -> smooth B (p - 1) ->
  (p = 2 -> 2 <= B) ->
  1 <= attempts ->
  exponent ln B 2 = Return s -> 0 <= s ->
  ((exists draw,
      (forall k : nat, 2 <= draw k <= num) /\
      exists d,
        fst (pollard_rho ln num B step attempts draw) = Return (Some d) /\
        1 < d < num /\ num mod d = 0)
   <-> ~ small_power_of_2 s num).
Proof.
  intros (c & Hc & Hcn) Hp Hpn Hsm HB2 Hatt Hexp Hs.
  pose proof (Z.prime_ge_2 p Hp) as Hp2.
  assert (HB : 2 <= B).
  { destruct (Z.eq_dec p 2) as [E|E]; [now apply HB2|].
    now apply (smooth_bound B p). }
  destruct (generate_primes_head B HB) as [rest Hrest].
  assert (Hrest1 : Forall (fun q => 1 <= q) rest).
  { pose proof (generate_primes_ge_1 B) as H. rewrite Hrest in H.
    now inversion H. }
  split.
  - intros (draw & _ & d & Hrun & _) Hsmall.
    unfold pollard_rho in Hrun.
    destruct (num <? 0); [discriminate|].
    destruct (num <? 2); [discriminate|].
    apply attempts_loop_some in Hrun as (guess & Ha).
    rewrite Hrest in Ha.
    now apply (attempt_small_power_of_2 ln num B s rest guess Hsmall Hexp
                 Hrest1 d).
  - intros Hns.
    assert (Hbase : exists a d,
      2 <= a <= num /\
      attempt ln num B (2 :: rest) a = Return (Some d)).
    { destruct (power_part p num ltac:(lia) ltac:(lia))
        as (k & m & Hk & Hm & Hnum & Hpm).
      assert (Hk1 : 1 <= k).
      { destruct (Z.eq_dec k 0) as [->|]; [|lia].
        rewrite Z.pow_0_r, Z.mul_1_l in Hnum. now subst. }
      assert (Hpk : p <= p ^ k).
      { pose proof (Z.pow_le_mono_r p 1 k ltac:(lia) ltac:(lia)) as Hle.
        now rewrite Z.pow_1_r in Hle. }
      destruct (Z.eq_dec m 1) as [->|Hm1].
      - rewrite Z.mul_1_r in Hnum.
        assert (Hk2 : 2 <= k).
        { destruct (Z.eq_dec k 1) as [->|]; [|lia].
          rewrite Z.pow_1_r in Hnum. subst num.
          destruct Hp as [_ Hp]. exfalso. now apply (Hp c). }
        assert (Hsq : p * p <= p ^ k).
        { pose proof (Z.pow_le_mono_r p 2 k ltac:(lia) ltac:(lia)) as Hle.
          now rewrite Z.pow_2_r in Hle. }
        destruct (Z.eq_dec p 2) as [->|Hodd].
        + destruct (first_step_returns ln num B 2 3 s rest) as [d Hd];
            try assumption; try lia.
          * now exists 1.
          * rewrite Hnum. apply power_of_2_step; try lia.
            destruct (Z.eq_dec s 0) as [|Hs0]; [now left|right].
            destruct (Z_le_gt_dec (s + 3) k) as [|Hgt]; [assumption|].
            exfalso. apply Hns. split; [lia|]. exists k. split; [lia|].
            exact Hnum.
          * exists 3, d. split; [nia|exact Hd].
        + destruct (first_step_returns ln num B p (1 + p) s rest)
            as [d Hd]; try assumption; try lia.
          * exists 1. ring.
          * rewrite Hnum. now apply odd_prime_power_step.
          * exists (1 + p), d. split; [nia|exact Hd].
      - assert (Hrel : Z.coprime m (p ^ k)).
        { apply Z.coprime_pow_r; [lia|]. symmetry.
          now apply Z.coprime_prime_l. }
        destruct (split_base (p ^ k) m ltac:(lia) ltac:(lia) Hrel)
          as (a & Ha & Hua & Hva).
        destruct (first_step_returns ln num B (p ^ k) a s rest)
          as [d Hd]; try assumption; try lia.
        + exists m. rewrite Hnum. ring.
        + intros Hd.
          assert (Hr : 1 <= 2 ^ s)
            by (pose proof (Z.pow_pos_nonneg 2 s); lia).
          assert (Hv1 : (m | a ^ (2 ^ s) - 1)).
          { apply Z.divide_trans with num; [|assumption].
            exists (p ^ k). exact Hnum. }
          assert (Hv2 : (m | a ^ (2 ^ s))).
          { apply Z.divide_trans with a; [assumption|].
            now apply Z.divide_pow_same_r. }
          assert (H1 : (m | 1)).
          { replace 1 with (a ^ (2 ^ s) - (a ^ (2 ^ s) - 1)) by ring.
            now apply Z.divide_sub_r. }
          apply Z.divide_1_r_nonneg in H1; lia.
        + exists a, d. split; [lia|exact Hd]. }
    destruct Hbase as (a & d & Ha & Hd).
    exists (fun _ => a). split; [intros _; exact Ha|].
    exists d.
    assert (Hprop : proper_divisor d num).
    { apply (attempt_divisor ln num B (2 :: rest) a d); [lia|exact Hd]. }
    destruct Hprop as [Hdiv Hr].
    split; [|split; [exact Hr|apply Z.mod_divide; [lia|exact Hdiv]]].
    unfold pollard_rho.
    replace (num <? 0) with false by (symmetry; apply Z.ltb_ge; lia).
    replace (num <? 2) with false by (symmetry; apply Z.ltb_ge; lia).
    destruct (Z.to_nat attempts) as [|n] eqn:En; [lia|].
    cbn [attempts_loop]. rewrite Hrest, Hd. reflexivity.
Qed.

Lemma pollard_rho_finds_factor_witness :
  exists draw,
    (forall k : nat, 2 <= draw k <= 8051) /\
    exists d,
      fst (pollard_rho ln_table 8051 10 1 5 draw) = Return (Some d) /\
      1 < d < 8051 /\ 8051 mod d = 0.
Proof.
  apply (pollard_rho_finds_factor ln_table 8051 10 1 5 97 3).
  - exists 83. split; [lia|]. exists 97. reflexivity.
  - apply is_prime_spec. vm_compute. reflexivity.
  - exists 83. reflexivity.
  - apply smoothb_spec; [lia|]. vm_compute. reflexivity.
  - lia.
  - lia.
  - vm_compute. reflexivity.
  - lia.
  - intros (_ & k & Hk & E).
    assert (Hcase : k = 2 \/ k = 3 \/ k = 4 \/ k = 5) by lia.
    destruct Hcase as [-> | [-> | [-> | ->]]]; discriminate.
Defined.

(** The squares of primes and the larger powers of two are split: 9 by the
    base 2 and 16 by the base 3, with [B = 2]. *)
Example pollard_rho_9 :
  pollard_rho ln_table 9 2 1 3 (fun _ => 2) = (Return (Some 3), 1%nat).
Proof. vm_compute. reflexivity. Qed.

Example pollard_rho_16 :
  pollard_rho ln_table 16 2 1 3 (fun _ => 3) = (Return (Some 8), 1%nat).
Proof. vm_compute. reflexivity. Qed.

(** On [num = 4] with [B = 2] every attempt fails: the square of the base is
    0 or 1 modulo 4, and the gcd is 1 or 4. *)
Lemma attempt_4_fails guess :
  attempt ln_table 4 2 (generate_primes 2) guess = Return None.
Proof.
  change (generate_primes 2) with [2]. cbn [attempt]. unfold fold_in.
  replace (exponent ln_table 2 2) with (@Return Z 1)
    by (vm_compute; reflexivity).
  cbn [bind]. change (1 <? 0) with false. cbv iota.
  change (2 ^ 1) with 2.
  rewrite Z.pow_2_r, Z.mul_mod by lia.
  pose proof (Z.mod_pos_bound guess 4 ltac:(lia)) as Hb.
  assert (E : guess mod 4 = 0 \/ guess mod 4 = 1 \/
              guess mod 4 = 2 \/ guess mod 4 = 3) by lia.
  destruct E as [E|[E|[E|E]]]; rewrite E; reflexivity.
Qed.

(** C1, as stated, fails: 4 is composite, its prime factor 2 has
    [2 - 1 = 1], which is 2-smooth, and yet with [B = 2] no number of
    attempts and no sequence of draws makes the function return a divisor
    of 4. *)
Lemma pollard_rho_never_splits_4 :
  composite 4 /\ Z.prime 2 /\ (2 | 4) /\ smooth 2 (2 - 1) /\
  ~ (exists attempts draw d,
       fst (pollard_rho ln_table 4 2 1 attempts draw) = Return (Some d)).
Proof.
  split; [exists 2; split; [lia|exists 2; reflexivity]|].
  split; [exact Z.prime_2|].
  split; [exists 2; reflexivity|].
  split; [apply smoothb_spec; [lia|reflexivity]|].
  intros (attempts & draw & d & H).
  unfold pollard_rho in H. cbn [Z.ltb Z.compare] in H.
  rewrite attempts_loop_none in H; [discriminate|].
  intros i _. apply attempt_4_fails.
Qed.

(** ** The exponent *)

(** The quotient of the doubles nearest to the logarithms of 243 and of 3
    falls below 5, and [int] truncates it to 4. *)
Lemma exponent_below_power ln :
  ln 243 = 0x1.5f8e5195843cdp+2%float ->
  ln 3 = 0x1.193ea7aad030bp+0%float ->
  log ln 243 3 = Return 0x1.3ffffffffffffp+2%float /\
  exponent ln 243 3 = Return 4.
Proof.
  intros H243 H3. unfold exponent, log. rewrite H243, H3.
  split; vm_compute; reflexivity.
Qed.

(** C3 fails on the code at [B = 243] and the prime 3, which the generator
    does stream: the quotient of the two logarithms is
    4.999999999999999, so that [s = 4], whereas [3 ^ 5 = 243 <= B]: the
    largest [s] with [3 ^ s <= B] is 5. *)
Theorem exponent_243_3 :
  In 3 (generate_primes 243) /\
  log ln_table 243 3 = Return 0x1.3ffffffffffffp+2%float /\
  exponent ln_table 243 3 = Return 4 /\
  3 ^ 5 <= 243 < 3 ^ 6.
Proof.
  destruct (exponent_below_power ln_table eq_refl eq_refl) as [Hlog Hexp].
  split; [vm_compute; tauto|].
  split; [exact Hlog|].
  split; [exact Hexp|].
  split; vm_compute; congruence.
Qed.

(** * Further properties of the code *)

(** ** The prime stream *)

Lemma generate_primes_below_2 B : B < 2 -> generate_primes B = [].
Proof. intros H. unfold generate_primes. now rewrite range_nil by lia. Qed.

Lemma range_app lo mid hi :
  lo <= mid <= hi -> range lo hi = range lo mid ++ range mid hi.
Proof.
  remember (Z.to_nat (mid - lo)) as n eqn:E.
  revert lo E. induction n as [|n IH]; intros lo E H.
  - replace mid with lo by lia. now rewrite (range_nil lo lo) by lia.
  - rewrite (range_cons lo hi), (range_cons lo mid) by lia.
    cbn [app]. f_equal. apply IH; lia.
Qed.

(** X1: the stream for a larger bound extends the stream for a smaller one
    by primes above the smaller bound. *)
Theorem generate_primes_prefix limit limit' :
  limit <= limit' ->
  exists rest,
    generate_primes limit' = generate_primes limit ++ rest /\
    Forall (fun p => limit < p <= limit') rest.
Proof.
  intros H. destruct (Z.le_gt_cases limit 1) as [Hsmall|Hbig].
  - exists (generate_primes limit'). split.
    + now rewrite (generate_primes_below_2 limit) by lia.
    + apply Forall_forall. intros p Hp%generate_primes_in. lia.
  - exists (filter is_prime (range (limit + 1) (limit' + 1))). split.
    + rewrite !generate_primes_filter.
      rewrite (range_app 2 (limit + 1) (limit' + 1)) by lia.
      apply filter_app.
    + apply Forall_forall. intros p [Hp%in_range _]%filter_In. lia.
Qed.

Lemma generate_primes_prefix_witness :
  exists rest,
    generate_primes 20 = generate_primes 10 ++ rest /\
    Forall (fun p => 10 < p <= 20) rest.
Proof. apply generate_primes_prefix. lia. Defined.

(** ** The outcome of the search *)

Lemma attempts_loop_some_at ln num B draw n : forall k d,
  fst (attempts_loop ln draw num B n k) = Return (Some d) ->
  exists j, (j < n)%nat /\
    attempt ln num B (generate_primes B) (draw (k + j)%nat) = Return (Some d).
Proof.
  induction n as [|n IH]; intros k d; cbn [attempts_loop].
  - discriminate.
  - destruct (attempt ln num B (generate_primes B) (draw k))
      as [[d'|]|e] eqn:Ha; cbn [fst].
    + intros [= <-]. exists O. rewrite Nat.add_0_r. split; [lia|exact Ha].
    + intros (j & Hj & Hd)%IH. exists (S j). split; [lia|].
      now replace (k + S j)%nat with (S k + j)%nat by lia.
    + discriminate.
Qed.

Lemma attempts_loop_first ln num B draw n : forall k j r,
  (j < n)%nat ->
  (forall i, (i < j)%nat ->
     attempt ln num B (generate_primes B) (draw (k + i)%nat) = Return None) ->
  attempt ln num B (generate_primes B) (draw (k + j)%nat) = r ->
  r <> Return None ->
  attempts_loop ln draw num B n k = (r, S (k + j)).
Proof.
  induction n as [|n IH]; intros k j r Hj Hnone Hr Hne; [lia|].
  cbn [attempts_loop]. destruct j as [|j].
  - rewrite Nat.add_0_r in *. rewrite Hr.
    destruct r as [[d|]|e]; congruence.
  - specialize (Hnone O (Nat.lt_0_succ j)) as H0.
    rewrite Nat.add_0_r in H0. rewrite H0.
    replace (S (k + S j)) with (S (S k + j)) by lia.
    apply IH; [lia| |now replace (S k + j)%nat with (k + S j)%nat by lia
              |exact Hne].
    intros i Hi. replace (S k + i)%nat with (k + S i)%nat by lia.
    apply Hnone. lia.
Qed.

(** X2: on a prime [num] the function never returns a divisor: its result
    is [None], or an exception of the exponent computation. *)
Theorem pollard_rho_prime ln num B step attempts draw :
  Z.prime num ->
  fst (pollard_rho ln num B step attempts draw) = Return None \/
  exists e, fst (pollard_rho ln num B step attempts draw) = Raise e.
Proof.
  intros Hp.
  destruct (fst (pollard_rho ln num B step attempts draw))
    as [[d|]|e] eqn:H; [|now left|right; now exists e].
  exfalso. pose proof (Z.prime_ge_2 _ Hp) as Hge.
  unfold pollard_rho in H.
  destruct (num <? 0); [discriminate|].
  destruct (num <? 2); [discriminate|].
  apply attempts_loop_some in H as (guess & Ha).
  apply attempt_divisor in Ha as [Hd Hr]; [|exact Hge].
  destruct Hp as [_ Hp]. now apply (Hp d).
Qed.

Lemma pollard_rho_prime_witness :
  fst (pollard_rho ln_table 17 10 1 5 (fun k => 2 + Z.of_nat k))
  = Return None \/
  exists e,
    fst (pollard_rho ln_table 17 10 1 5 (fun k => 2 + Z.of_nat k)) = Raise e.
Proof.
  apply pollard_rho_prime. apply is_prime_spec. vm_compute. reflexivity.
Defined.

(** X3: with a bound [B] below 2 no prime is streamed: for [num >= 2] every
    attempt draws its base and finds nothing, and the function returns
    [None] after [attempts] draws, without a call to the logarithm. *)
Theorem pollard_rho_no_primes ln num B step attempts draw :
  2 <= num -> B < 2 ->
  pollard_rho ln num B step attempts draw = (Return None, Z.to_nat attempts).
Proof.
  intros Hnum HB. guards.
  rewrite attempts_loop_none; [reflexivity|].
  intros i _. now rewrite generate_primes_below_2.
Qed.

Lemma pollard_rho_no_primes_witness :
  pollard_rho (fun _ => nan) 8051 1 1 5 (fun _ => 84) =
  (Return None, Z.to_nat 5).
Proof. apply pollard_rho_no_primes; lia. Defined.

(** X4: the first attempt whose outcome is not [None] decides the call: its
    divisor is returned, or its exception propagates with no further
    attempt, after one draw for it and one for each attempt before it. *)
Theorem pollard_rho_first_outcome ln num B step attempts draw k r :
  2 <= num ->
  (k < Z.to_nat attempts)%nat ->
  (forall i, (i < k)%nat ->
     attempt ln num B (generate_primes B) (draw i) = Return None) ->
  attempt ln num B (generate_primes B) (draw k) = r ->
  r <> Return None ->
  pollard_rho ln num B step attempts draw = (r, S k).
Proof.
  intros Hnum Hk Hnone Hr Hne. guards.
  now apply (attempts_loop_first ln num B draw _ O k r).
Qed.

Lemma pollard_rho_first_outcome_witness :
  pollard_rho ln_table 8051 10 1 5 (fun k => if (k <? 1)%nat then 2 else 84)
  = (Return (Some 83), 2%nat).
Proof.
  apply (pollard_rho_first_outcome ln_table 8051 10 1 5
           (fun k => if (k <? 1)%nat then 2 else 84) 1%nat).
  - lia.
  - change (Z.to_nat 5) with 5%nat. lia.
  - intros i Hi. destruct i as [|i]; [vm_compute; reflexivity|lia].
  - vm_compute. reflexivity.
  - discriminate.
Defined.

(** ** The values of [guess] *)

Lemma attempt_multiple ln num B primes : forall guess,
  2 <= num ->
  Forall (fun p => 1 <= p) primes ->
  (num | guess) ->
  Forall (fun g => g = 0) (guesses ln num B primes guess) /\
  (attempt ln num B primes guess = Return None \/
   exists e, attempt ln num B primes guess = Raise e).
Proof.
  induction primes as [|prime primes IH]; intros guess Hnum Hp Hdiv;
    cbn [guesses attempt].
  - split; [constructor|now left].
  - inversion Hp as [|? ? Hprime Hrest]; subst.
    destruct (fold_in ln num B prime guess) as [guess'|e] eqn:Hf;
      cbn [bind]; [|split; [constructor|right; now exists e]].
    apply fold_in_inv in Hf as (s & _ & Hs & ->).
    assert (Hr : 1 <= prime ^ s) by (pose proof (Z.pow_pos_nonneg prime s); lia).
    assert (E : (guess ^ (prime ^ s)) mod num = 0).
    { apply Z.mod0_divide. apply Z.divide_trans with guess; [assumption|].
      now apply Z.divide_pow_same_r. }
    rewrite E, gcd_minus_1.
    replace (nontrivial 1 num) with false by reflexivity.
    destruct (IH 0 Hnum Hrest (Z.divide_0_r num)) as [Hg Ha].
    split; [now constructor|exact Ha].
Qed.

(** X6: a base that is a multiple of [num] is lost: every value of [guess]
    is then 0, every gcd is 1, and the attempt returns no divisor.  The
    draw [randint(2, num)] includes [num] itself, which is such a base. *)
Theorem attempt_multiple_of_num ln num B guess :
  2 <= num ->
  (num | guess) ->
  Forall (fun g => g = 0) (guesses ln num B (generate_primes B) guess) /\
  (attempt ln num B (generate_primes B) guess = Return None \/
   exists e, attempt ln num B (generate_primes B) guess = Raise e).
Proof.
  intros Hnum Hdiv.
  apply attempt_multiple; [assumption|apply generate_primes_ge_1|assumption].
Qed.

Lemma attempt_multiple_of_num_witness :
  Forall (fun g => g = 0)
         (guesses ln_table 8051 10 (generate_primes 10) 8051) /\
  (attempt ln_table 8051 10 (generate_primes 10) 8051 = Return None \/
   exists e, attempt ln_table 8051 10 (generate_primes 10) 8051 = Raise e).
Proof.
  apply attempt_multiple_of_num; [lia|apply Z.divide_refl].
Defined.

Lemma smooth_1 B : smooth B 1.
Proof.
  intros q Hq Hd. pose proof (Z.prime_ge_2 q Hq).
  apply Z.divide_1_r_nonneg in Hd; lia.
Qed.

Lemma smooth_mul_power B M p s :
  smooth B M -> Z.prime p -> p <= B -> 0 <= s -> smooth B (M * p ^ s).
Proof.
  intros HM Hp HpB Hs q Hq Hd.
  apply Z.divide_prime_mul in Hd; [|assumption].
  destruct Hd as [Hd|Hd]; [now apply HM|].
  apply Z.divide_prime_pp in Hd; try assumption. lia.
Qed.

Lemma guesses_power ln num B base primes : forall guess M,
  2 <= num ->
  Forall (fun p => Z.prime p /\ p <= B) primes ->
  1 <= M -> smooth B M ->
  guess mod num = base ^ M mod num ->
  Forall (fun g => exists M', 1 <= M' /\ smooth B M' /\ g = base ^ M' mod num)
         (guesses ln num B primes guess).
Proof.
  induction primes as [|prime primes IH]; intros guess M Hnum Hp HM Hsm Hg;
    cbn [guesses]; [constructor|].
  inversion Hp as [|? ? [Hprime HpB] Hrest]; subst.
  destruct (fold_in ln num B prime guess) as [guess'|e] eqn:Hf; [|constructor].
  apply fold_in_inv in Hf as (s & _ & Hs & ->).
  pose proof (Z.prime_ge_2 _ Hprime).
  assert (Hr : 1 <= prime ^ s) by (pose proof (Z.pow_pos_nonneg prime s); lia).
  assert (E : (guess ^ (prime ^ s)) mod num = base ^ (M * prime ^ s) mod num).
  { rewrite <- Z.mod_pow_l, Hg, Z.mod_pow_l.
    now rewrite Z.pow_mul_r by lia. }
  assert (Hsm' : smooth B (M * prime ^ s)) by now apply smooth_mul_power.
  constructor.
  - exists (M * prime ^ s). split; [nia|]. now split.
  - destruct (nontrivial _ _); [constructor|].
    apply (IH _ (M * prime ^ s)); try assumption; [nia|].
    rewrite E. apply Z.mod_mod. lia.
Qed.

Lemma generate_primes_bounded B :
  Forall (fun p => Z.prime p /\ p <= B) (generate_primes B).
Proof.
  apply Forall_forall. intros p Hp%generate_primes_in. split; [tauto|lia].
Qed.

Lemma guesses_power_base ln num B base :
  2 <= num ->
  Forall (fun g => exists M, 1 <= M /\ smooth B M /\ g = base ^ M mod num)
         (guesses ln num B (generate_primes B) base).
Proof.
  intros Hnum.
  apply (guesses_power ln num B base _ base 1); try assumption.
  - apply generate_primes_bounded.
  - lia.
  - apply smooth_1.
  - now rewrite Z.pow_1_r.
Qed.

(** X5: every value of [guess] in an attempt is the drawn base raised,
    modulo [num], to an exponent [M >= 1] whose prime factors are all at
    most [B]. *)
Theorem guesses_smooth_power ln num B base :
  2 <= num ->
  Forall (fun g => exists M, 1 <= M /\ smooth B M /\ g = base ^ M mod num)
         (guesses ln num B (generate_primes B) base).
Proof. apply guesses_power_base. Qed.

Lemma guesses_smooth_power_witness :
  Forall (fun g => exists M, 1 <= M /\ smooth 10 M /\ g = 84 ^ M mod 8051)
         (guesses ln_table 8051 10 (generate_primes 10) 84).
Proof. apply guesses_smooth_power. lia. Defined.

(** X7: a returned divisor is [gcd(base ** M - 1, num)] for the base of one
    of the [attempts] draws and an exponent [M >= 1] whose prime factors
    are all at most [B]. *)
Theorem pollard_rho_divisor_form ln num B step attempts draw d :
  fst (pollard_rho ln num B step attempts draw) = Return (Some d) ->
  exists k M,
    (k < Z.to_nat attempts)%nat /\ 1 <= M /\ smooth B M /\
    d = Z.gcd (draw k ^ M - 1) num.
Proof.
  unfold pollard_rho.
  destruct (num <? 0); [discriminate|].
  destruct (Z.ltb_spec num 2) as [|Hnum]; [discriminate|].
  intros (k & Hk & Ha)%attempts_loop_some_at. cbn [Nat.add] in Ha.
  apply attempt_divisor_guess in Ha as (g & Hg & ->).
  pose proof (guesses_power_base ln num B (draw k) Hnum) as Hall.
  rewrite Forall_forall in Hall.
  destruct (Hall g Hg) as (M & HM & Hsm & ->).
  exists k, M. repeat split; try assumption.
  apply gcd_mod_pred. lia.
Qed.

Lemma pollard_rho_divisor_form_witness :
  exists k M,
    (k < Z.to_nat 5)%nat /\ 1 <= M /\ smooth 10 M /\
    83 = Z.gcd ((fun _ : nat => 84) k ^ M - 1) 8051.
Proof.
  apply (pollard_rho_divisor_form ln_table 8051 10 1 5 (fun _ => 84) 83).
  vm_compute. reflexivity.
Defined.

(** ** When the search succeeds *)

Lemma net_exponent_pos ln B primes : forall M,
  Forall (fun p => 1 <= p) primes ->
  net_exponent ln B primes = Return M -> 1 <= M.
Proof.
  induction primes as [|prime primes IH]; intros M Hp; cbn [net_exponent].
  - intros [= <-]. lia.
  - inversion Hp as [|? ? Hprime Hrest]; subst.
    destruct (exponent ln B prime) as [s|e]; cbn [bind]; [|discriminate].
    destruct (Z.ltb_spec s 0); [discriminate|].
    destruct (net_exponent ln B primes) as [M'|e] eqn:HM'; cbn [bind];
      [|discriminate].
    intros [= <-]. specialize (IH M' Hrest eq_refl).
    pose proof (Z.pow_pos_nonneg prime s). nia.
Qed.

(** An attempt whose exponents are all computed returns a divisor, or else
    runs to the end, where the gcd taken on [guess ** M] is trivial. *)
Lemma attempt_outcome ln num B primes : forall guess M,
  primes <> [] ->
  Forall (fun p => 1 <= p) primes ->
  net_exponent ln B primes = Return M ->
  (exists d, attempt ln num B primes guess = Return (Some d)) \/
  (attempt ln num B primes guess = Return None /\
   nontrivial (Z.gcd (guess ^ M mod num - 1) num) num = false).
Proof.
  induction primes as [|prime primes IH]; intros guess M Hne Hp;
    [congruence|].
  inversion Hp as [|? ? Hprime Hrest]; subst.
  cbn [net_exponent attempt]. unfold fold_in.
  destruct (exponent ln B prime) as [s|e]; cbn [bind]; [|discriminate].
  destruct (Z.ltb_spec s 0) as [|Hs]; [discriminate|].
  destruct (net_exponent ln B primes) as [M'|e] eqn:HM'; cbn [bind];
    [|discriminate].
  intros [= <-]. cbv zeta.
  assert (Hr : 1 <= prime ^ s) by (pose proof (Z.pow_pos_nonneg prime s); lia).
  pose proof (net_exponent_pos ln B primes M' Hrest HM') as HM'pos.
  destruct (nontrivial (Z.gcd (guess ^ (prime ^ s) mod num - 1) num) num)
    eqn:Hnt; [left; eauto|].
  destruct primes as [|prime' primes].
  - right. cbn [net_exponent] in HM'. injection HM' as <-.
    rewrite Z.mul_1_r. now split.
  - specialize (IH (guess ^ (prime ^ s) mod num) M'
                  ltac:(discriminate) Hrest eq_refl).
    destruct IH as [Hd|[Hn Hg]]; [now left|right].
    split; [exact Hn|].
    rewrite Z.mod_pow_l in Hg. now rewrite Z.pow_mul_r by lia.
Qed.

(** Fermat's little theorem along a multiple of [p - 1]. *)
Lemma pow_multiple_pred p base M :
  Z.prime p -> ~ (p | base) -> 0 <= M -> (p - 1 | M) ->
  (p | base ^ M - 1).
Proof.
  intros Hp Hbase HM [c ->].
  pose proof (Z.prime_ge_2 p Hp).
  assert (Hc : 0 <= c) by nia.
  apply Z.mod_divide; [lia|].
  rewrite Z.mul_comm, Z.pow_mul_r by lia.
  rewrite <- Zminus_mod_idemp_l, <- Z.mod_pow_l.
  rewrite Z.fermat_nz; [|assumption|].
  - rewrite Z.pow_1_l by assumption. rewrite Z.mod_1_l by lia.
    reflexivity.
  - intros E. apply Hbase. apply Z.mod_divide; [lia|exact E].
Qed.

(** X8: the p-1 method on the code.  Let [p] be a prime factor of [num] that
    does not divide the first base drawn, and let [M] be the product of the
    powers [pow(prime, s)] that the loop folds in for the primes up to [B],
    all computed without error.  If [p - 1] divides [M], and [num] does not
    divide [base ** M - 1], the first attempt returns a divisor [d] with
    [1 < d < num], after one draw. *)
Theorem pollard_rho_p_minus_1 ln num B step attempts draw p M :
  2 <= num -> 2 <= B -> 1 <= attempts ->
  Z.prime p -> (p | num) -> ~ (p | draw O) ->
  net_exponent ln B (generate_primes B) = Return M ->
  (p - 1 | M) ->
  ~ (num | draw O ^ M - 1) ->
  exists d,
    pollard_rho ln num B step attempts draw = (Return (Some d), 1%nat) /\
    proper_divisor d num.
Proof.
  intros Hnum HB Hatt Hp Hpn Hbase HM Hdiv Hnot.
  pose proof (Z.prime_ge_2 p Hp) as Hp2.
  pose proof (generate_primes_ge_1 B) as Hge.
  pose proof (net_exponent_pos ln B _ M Hge HM) as HMpos.
  destruct (generate_primes_head B HB) as [rest Hrest].
  destruct (attempt_outcome ln num B (generate_primes B) (draw O) M)
    as [[d Hd]|[_ Hnt]]; try assumption; [rewrite Hrest; discriminate| |].
  - exists d.
    split; [|exact (attempt_divisor ln num B _ (draw O) d Hnum Hd)].
    guards. destruct (Z.to_nat attempts) as [|n] eqn:En; [lia|].
    cbn [attempts_loop]. now rewrite Hd.
  - exfalso. rewrite gcd_mod_pred in Hnt by lia.
    assert (Hpg : (p | Z.gcd (draw O ^ M - 1) num)).
    { apply Z.gcd_greatest; [|assumption].
      apply pow_multiple_pred; assumption || lia. }
    unfold nontrivial in Hnt. apply andb_false_iff in Hnt.
    rewrite !negb_false_iff, !Z.eqb_eq in Hnt.
    destruct Hnt as [E|E].
    + rewrite E in Hpg. apply Z.divide_1_r_nonneg in Hpg; lia.
    + apply Hnot. rewrite <- E at 1. apply Z.gcd_divide_l.
Qed.

(** 6059 = 73 * 83, and 72 = 2^3 * 3^2 divides 2520 = 2^3 * 3^2 * 5 * 7. *)
Lemma pollard_rho_p_minus_1_witness :
  exists d,
    pollard_rho ln_table 6059 10 1 5 (fun _ => 2) = (Return (Some d), 1%nat) /\
    proper_divisor d 6059.
Proof.
  apply (pollard_rho_p_minus_1 ln_table 6059 10 1 5 (fun _ => 2) 73 2520).
  - lia.
  - lia.
  - lia.
  - apply is_prime_spec. vm_compute. reflexivity.
  - exists 83. reflexivity.
  - intros Hd. apply Z.divide_pos_le in Hd; lia.
  - vm_compute. reflexivity.
  - exists 35. reflexivity.
  - intros Hd. apply Z.mod_divide in Hd; [|lia].
    vm_compute in Hd. discriminate.
Defined.

(** ** The command line *)

Lemma pollard_rho_some_proper ln num B step attempts draw d :
  fst (pollard_rho ln num B step attempts draw) = Return (Some d) ->
  proper_divisor d num.
Proof.
  unfold pollard_rho.
  destruct (num <? 0); [discriminate|].
  destruct (Z.ltb_spec num 2) as [|Hnum]; [discriminate|].
  intros (guess & Ha)%attempts_loop_some.
  exact (attempt_divisor ln num B _ guess d Hnum Ha).
Qed.

(** X9: a line that the command prints is the "probably prime" line, or a
    factorization [num = d * q] that is true, with both factors strictly
    between 1 and [num]. *)
Theorem main_prints ln a draw line :
  main ln a draw = Return line ->
  line = (str (args_num a) ++ " is probably prime")%string \/
  exists d q,
    line = (str (args_num a) ++ " = " ++ str d ++ " * " ++ str q)%string /\
    args_num a = d * q /\ 1 < d < args_num a /\ 1 < q < args_num a.
Proof.
  unfold main.
  destruct (fst (pollard_rho ln (args_num a) (args_B a) 1 (args_attempts a)
                   draw)) as [[d|]|e] eqn:Hrun; cbn [bind];
    [|intros [= <-]; now left|discriminate].
  intros [= <-]. right.
  apply pollard_rho_some_proper in Hrun as [[c Hc] Hr].
  exists d, (args_num a / d).
  assert (Hq : args_num a / d = c) by (rewrite Hc; apply Z.div_mul; lia).
  rewrite Hq. repeat split; try lia; nia.
Qed.

Lemma main_prints_witness :
  "8051 = 83 * 97"%string =
    (str 8051 ++ " is probably prime")%string \/
  exists d q,
    "8051 = 83 * 97"%string =
      (str 8051 ++ " = " ++ str d ++ " * " ++ str q)%string /\
    8051 = d * q /\ 1 < d < 8051 /\ 1 < q < 8051.
Proof.
  apply (main_prints ln_table
           {| args_num := 8051; args_B := 10; args_attempts := 5 |}
           (fun _ => 84)).
  vm_compute. reflexivity.
Defined.

(** X10: on a number with no proper divisor to find, that is 0, 1 or a prime,
    the command prints the "probably prime" line, unless the exponent
    computation raises. *)
Theorem main_probably_prime ln a draw :
  args_num a = 0 \/ args_num a = 1 \/ Z.prime (args_num a) ->
  main ln a draw = Return (str (args_num a) ++ " is probably prime")%string \/
  exists e, main ln a draw = Raise e.
Proof.
  intros Hnum. unfold main.
  destruct (fst (pollard_rho ln (args_num a) (args_B a) 1 (args_attempts a)
                   draw)) as [[d|]|e] eqn:Hrun; cbn [bind];
    [|now left|right; now exists e].
  exfalso. apply pollard_rho_some_proper in Hrun as [Hd Hr].
  destruct Hnum as [E|[E|[_ Hp]]]; [lia|lia|].
  now apply (Hp d).
Qed.

Lemma main_probably_prime_witness :
  main ln_table {| args_num := 1; args_B := 10; args_attempts := 5 |}
       (fun _ => 2)
  = Return (str 1 ++ " is probably prime")%string \/
  exists e,
    main ln_table {| args_num := 1; args_B := 10; args_attempts := 5 |}
         (fun _ => 2) = Raise e.
Proof.
  apply (main_probably_prime ln_table
           {| args_num := 1; args_B := 10; args_attempts := 5 |}).
  right. left. reflexivity.
Defined.

(** On a negative number the command prints nothing: the [ValueError] of
    the call leaves it. *)
Theorem main_negative ln a draw :
  args_num a < 0 -> main ln a draw = Raise ValueError.
Proof.
  intros H. unfold main, pollard_rho.
  now destruct (Z.ltb_spec (args_num a) 0); [|lia].
Qed.
